(** * Domain-separation registry and note field widths

    A shallow embedding of
    [barretenberg/src/aztec/rollup/proofs/notes/constants.hpp]:
    the [GeneratorIndex] enumeration, with the C++ rule that gives every
    enumerator its value, and the [constexpr] bit-length constants.  The
    unsigned C++ integers ([size_t], [uint32_t], the enumerator values) are
    binary naturals [N]; where an addition is done on [uint32_t] its
    wrap-around is written out. *)

From Stdlib Require Import NArith List Bool Sorted Lia.
Import ListNotations.

Local Open Scope N_scope.

(** ** The enumeration *)

(** [enum GeneratorIndex], one constructor per enumerator, in declaration
    order. *)
Inductive GeneratorIndex : Set :=
  | JOIN_SPLIT_NULLIFIER_HASH_INPUTS
  | ACCOUNT_NOTE_HASH_INPUTS
  | ACCOUNT_ALIAS_ID_NULLIFIER
  | ACCOUNT_GIBBERISH_NULLIFIER
  | JOIN_SPLIT_NOTE_OWNER
  | JOIN_SPLIT_CLAIM_NOTE_PARTIAL_STATE
  | JOIN_SPLIT_NOTE_VALUE
  | JOIN_SPLIT_NOTE_SECRET
  | JOIN_SPLIT_NOTE_ASSET_ID
  | JOIN_SPLIT_NOTE_NONCE
  | JOIN_SPLIT_NULLIFIER_ACCOUNT_PRIVATE_KEY
  | JOIN_SPLIT_CLAIM_NOTE_VALUE
  | JOIN_SPLIT_CLAIM_NOTE_BRIDGE_ID
  | JOIN_SPLIT_CLAIM_NOTE_DEFI_INTERACTION_NONCE
  | DEFI_INTERACTION_NOTE_TOTAL_INPUT_VALUE
  | DEFI_INTERACTION_NOTE_BRIDGE_ID
  | DEFI_INTERACTION_NOTE_TOTAL_OUTPUT_A_VALUE
  | DEFI_INTERACTION_NOTE_TOTAL_OUTPUT_B_VALUE
  | DEFI_INTERACTION_NOTE_INTERACTION_NONCE
  | DEFI_INTERACTION_NOTE_INTERACTION_RESULT.

Definition GeneratorIndex_eq_dec (p q : GeneratorIndex) : {p = q} + {p <> q}.
Proof. decide equality. Defined.

Definition GeneratorIndex_eqb (p q : GeneratorIndex) : bool :=
  if GeneratorIndex_eq_dec p q then true else false.

(** The hash mode named in the comment that follows an enumerator. *)
Inductive HashMode : Set := encrypt | compress | compress_to_point.

(** What the trailing comment of an enumerator records: the hash mode, the
    number of inputs when it is written ("4 inputs"), and the closing span
    of numbers ("0-7"). *)
Record Remark : Set := mkRemark {
  mode : HashMode;
  inputs : option N;
  span_first : N;
  span_last : N
}.

(** One line of the enumeration: the enumerator, its initializer when it has
    one ([= 4]), and its comment when it has one. *)
Record Enumerator : Set := mkEnumerator {
  name : GeneratorIndex;
  initializer : option N;
  remark : option Remark
}.

(** The body of [enum GeneratorIndex], line by line. *)
Definition declaration : list Enumerator :=
  [ mkEnumerator JOIN_SPLIT_NULLIFIER_HASH_INPUTS None
      (Some (mkRemark encrypt (Some 4) 0 7));
    mkEnumerator ACCOUNT_NOTE_HASH_INPUTS (Some 4)
      (Some (mkRemark encrypt (Some 3) 8 13));
    mkEnumerator ACCOUNT_ALIAS_ID_NULLIFIER (Some 7)
      (Some (mkRemark compress (Some 4) 14 21));
    mkEnumerator ACCOUNT_GIBBERISH_NULLIFIER (Some 11)
      (Some (mkRemark compress (Some 2) 22 25));
    mkEnumerator JOIN_SPLIT_NOTE_OWNER (Some 13)
      (Some (mkRemark compress_to_point None 26 29));
    mkEnumerator JOIN_SPLIT_CLAIM_NOTE_PARTIAL_STATE (Some 15)
      (Some (mkRemark compress_to_point None 30 33));
    mkEnumerator JOIN_SPLIT_NOTE_VALUE (Some 34) None;
    mkEnumerator JOIN_SPLIT_NOTE_SECRET None None;
    mkEnumerator JOIN_SPLIT_NOTE_ASSET_ID None None;
    mkEnumerator JOIN_SPLIT_NOTE_NONCE None None;
    mkEnumerator JOIN_SPLIT_NULLIFIER_ACCOUNT_PRIVATE_KEY None None;
    mkEnumerator JOIN_SPLIT_CLAIM_NOTE_VALUE None None;
    mkEnumerator JOIN_SPLIT_CLAIM_NOTE_BRIDGE_ID None None;
    mkEnumerator JOIN_SPLIT_CLAIM_NOTE_DEFI_INTERACTION_NONCE None None;
    mkEnumerator DEFI_INTERACTION_NOTE_TOTAL_INPUT_VALUE None None;
    mkEnumerator DEFI_INTERACTION_NOTE_BRIDGE_ID None None;
    mkEnumerator DEFI_INTERACTION_NOTE_TOTAL_OUTPUT_A_VALUE None None;
    mkEnumerator DEFI_INTERACTION_NOTE_TOTAL_OUTPUT_B_VALUE None None;
    mkEnumerator DEFI_INTERACTION_NOTE_INTERACTION_NONCE None None;
    mkEnumerator DEFI_INTERACTION_NOTE_INTERACTION_RESULT None None ].

(** The C++ rule for enumerator values: an enumerator with an initializer
    has that value; one without has the previous enumerator's value plus
    one, and the first has zero.  [next] is the value an enumerator without
    initializer receives. *)
Fixpoint assign_values (next : N) (decl : list Enumerator)
  : list (GeneratorIndex * N) :=
  match decl with
  | [] => []
  | e :: rest =>
      let v := match initializer e with Some i => i | None => next end in
      (name e, v) :: assign_values (v + 1) rest
  end.

(** Every enumerator with its value, in declaration order. *)
Definition enumerators : list (GeneratorIndex * N) :=
  assign_values 0 declaration.

Fixpoint assoc {A : Type} (p : GeneratorIndex) (l : list (GeneratorIndex * A))
  : option A :=
  match l with
  | [] => None
  | (q, a) :: rest => if GeneratorIndex_eqb p q then Some a else assoc p rest
  end.

(** The integer value of an enumerator (what [static_cast<size_t>(p)]
    yields at a call site). *)
Definition index (p : GeneratorIndex) : N :=
  match assoc p enumerators with Some v => v | None => 0 end.

(** The comment attached to an enumerator, if any. *)
Definition remark_of (p : GeneratorIndex) : option Remark :=
  match find (fun e => GeneratorIndex_eqb p (name e)) declaration with
  | Some e => remark e
  | None => None
  end.

(** Modelled from the spec: the header declares no arity; the number of
    consecutive generators a purpose consumes is 4, 3, 4, 2, 2, 2 for the
    six purposes declared before [JOIN_SPLIT_NOTE_VALUE] and 1 for each
    purpose from [JOIN_SPLIT_NOTE_VALUE] onward.  For the four purposes
    whose comment writes an input count this is that count
    ([arity_is_commented_inputs] below). *)
Definition arity (p : GeneratorIndex) : N :=
  match p with
  | JOIN_SPLIT_NULLIFIER_HASH_INPUTS => 4
  | ACCOUNT_NOTE_HASH_INPUTS => 3
  | ACCOUNT_ALIAS_ID_NULLIFIER => 4
  | ACCOUNT_GIBBERISH_NULLIFIER => 2
  | JOIN_SPLIT_NOTE_OWNER => 2
  | JOIN_SPLIT_CLAIM_NOTE_PARTIAL_STATE => 2
  | _ => 1
  end.

(** [g] lies in the range [[index p, index p + arity p)] owned by [p]. *)
Definition in_range (p : GeneratorIndex) (g : N) : Prop :=
  index p <= g < index p + arity p.

(** The same range, enumerated. *)
Definition range (p : GeneratorIndex) : list N :=
  map N.of_nat (seq (N.to_nat (index p)) (N.to_nat (arity p))).

(** The registry as a table: each purpose with its [(index, arity)], in
    declaration order. *)
Definition registry : list (GeneratorIndex * (N * N)) :=
  map (fun '(p, v) => (p, (v, arity p))) enumerators.

(** Registry lookup: the [(index, arity)] of a purpose. *)
Definition lookup (p : GeneratorIndex) : option (N * N) := assoc p registry.

(** Whether two ranges [[i1, i1 + a1)] and [[i2, i2 + a2)] have a common
    element. *)
Definition overlap (r1 r2 : N * N) : bool :=
  let '(i1, a1) := r1 in
  let '(i2, a2) := r2 in
  N.max i1 i2 <? N.min (i1 + a1) (i2 + a2).

(** Modelled from the spec: the static overlap check ("a build-time
    assertion enumerating all ranges and rejecting overlaps") is not part of
    the header.  It enumerates every pair of table entries, the earlier one
    first, and reports the pairs whose ranges overlap. *)
Fixpoint collisions (tbl : list (GeneratorIndex * (N * N)))
  : list (GeneratorIndex * GeneratorIndex) :=
  match tbl with
  | [] => []
  | (p, r) :: rest =>
      map (fun e => (p, fst e)) (filter (fun e => overlap r (snd e)) rest)
      ++ collisions rest
  end.

(** ** The bit-length constants *)

(** [constexpr size_t NOTE_VALUE_BIT_LENGTH = 252;] *)
Definition NOTE_VALUE_BIT_LENGTH : N := 252.

(** The five [constexpr uint32_t] widths of a DeFi bridge id. *)
Definition DEFI_BRIDGE_ADDRESS_BIT_LENGTH : N := 160.
Definition DEFI_BRIDGE_NUM_OUTPUT_NOTES_LEN : N := 2.
Definition DEFI_BRIDGE_INPUT_ASSET_ID_LEN : N := 32.
Definition DEFI_BRIDGE_OUTPUT_A_ASSET_ID_LEN : N := 32.
Definition DEFI_BRIDGE_OUTPUT_B_ASSET_ID_LEN : N := 26.

(** Addition on [uint32_t]: the sum reduced modulo [2^32]. *)
Definition uint32_add (a b : N) : N := (a + b) mod 2 ^ 32.

(** Modelled from the spec: the field purposes under which the widths are
    looked up, one per constant of the header. *)
Inductive FieldWidth : Set :=
  | NOTE_VALUE
  | DEFI_BRIDGE_ADDRESS
  | DEFI_BRIDGE_NUM_OUTPUT_NOTES
  | DEFI_BRIDGE_INPUT_ASSET_ID
  | DEFI_BRIDGE_OUTPUT_A_ASSET_ID
  | DEFI_BRIDGE_OUTPUT_B_ASSET_ID.

(** Modelled from the spec: field-width lookup, "given a field purpose,
    return its bit-length"; each purpose is bound to its header constant. *)
Definition bit_length (f : FieldWidth) : N :=
  match f with
  | NOTE_VALUE => NOTE_VALUE_BIT_LENGTH
  | DEFI_BRIDGE_ADDRESS => DEFI_BRIDGE_ADDRESS_BIT_LENGTH
  | DEFI_BRIDGE_NUM_OUTPUT_NOTES => DEFI_BRIDGE_NUM_OUTPUT_NOTES_LEN
  | DEFI_BRIDGE_INPUT_ASSET_ID => DEFI_BRIDGE_INPUT_ASSET_ID_LEN
  | DEFI_BRIDGE_OUTPUT_A_ASSET_ID => DEFI_BRIDGE_OUTPUT_A_ASSET_ID_LEN
  | DEFI_BRIDGE_OUTPUT_B_ASSET_ID => DEFI_BRIDGE_OUTPUT_B_ASSET_ID_LEN
  end.

(** Modelled from the spec: the fields of a bridge id in packing order
    (address, output-note count, input asset id, first and second output
    asset id). *)
Definition bridge_layout : list FieldWidth :=
  [ DEFI_BRIDGE_ADDRESS; DEFI_BRIDGE_NUM_OUTPUT_NOTES;
    DEFI_BRIDGE_INPUT_ASSET_ID; DEFI_BRIDGE_OUTPUT_A_ASSET_ID;
    DEFI_BRIDGE_OUTPUT_B_ASSET_ID ].

(** The number of bits a sequence of fields occupies when packed. *)
Definition total_width (widths : list N) : N := fold_right N.add 0 widths.

(** The packed width of a bridge id: the sum of the widths of its fields. *)
Definition bridge_packed_width : N :=
  total_width (map bit_length bridge_layout).

(** Modelled from the spec: the scalar field is declared outside this
    header; its modulus has a bit-length of "conventionally ~254 bits". *)
Definition SCALAR_FIELD_BIT_LENGTH : N := 254.

(** ** Width validation *)

(** The error reported to a caller who hands in a value that does not fit. *)
Inductive Error : Set := InvalidInput.

Inductive result (A : Type) : Type :=
  | Ok (a : A)
  | Err (e : Error).
Arguments Ok {A} a.
Arguments Err {A} e.

Definition bind {A B : Type} (r : result A) (k : A -> result B) : result B :=
  match r with
  | Ok a => k a
  | Err e => Err e
  end.

Notation "x <- r ;; k" := (bind r (fun x => k))
  (at level 61, r at next level, right associativity).

(** The number of bits needed to write the unsigned value [v] in binary
    (none for zero). *)
Definition bits_required (v : N) : N := N.size v.

(** Modelled from the spec: the range-validation helper is not part of the
    header.  It rejects a value "requiring more bits than allotted" with an
    invalid-input error and hands an accepted value back unchanged. *)
Definition validate_width (width v : N) : result N :=
  if bits_required v <=? width then Ok v else Err InvalidInput.

Definition validate_note_value (v : N) : result N :=
  validate_width NOTE_VALUE_BIT_LENGTH v.

(** What a silent truncation to [width] bits would keep of [v]. *)
Definition truncate (width v : N) : N := N.land v (N.ones width).

(** ** Packing *)

(** Modelled from the spec: the packing code is not part of the header.
    Fields are laid out in the order given, the first in the least
    significant bits, each shifted past the widths of those before it. *)
Fixpoint pack (fields : list (N * N)) : N :=
  match fields with
  | [] => 0
  | (w, v) :: rest => N.lor v (N.shiftl (pack rest) w)
  end.

(** Modelled from the spec: the inverse of [pack], masking off one field at
    a time from the least significant end. *)
Fixpoint unpack (widths : list N) (x : N) : list N :=
  match widths with
  | [] => []
  | w :: rest => N.land x (N.ones w) :: unpack rest (N.shiftr x w)
  end.

(** Every field fits the width it is packed with. *)
Definition fields_fit (fields : list (N * N)) : Prop :=
  Forall (fun f => snd f < 2 ^ fst f) fields.

(** Modelled from the spec: the tuple a DeFi bridge id packs, all fields
    unsigned. *)
Record bridge_id : Set := mkBridgeId {
  address : N;
  numOutputNotes : N;
  inputAssetId : N;
  outputAAssetId : N;
  outputBAssetId : N
}.

(** The value a bridge id holds for each of its fields ([NOTE_VALUE] is no
    field of a bridge id). *)
Definition field_value (b : bridge_id) (f : FieldWidth) : N :=
  match f with
  | NOTE_VALUE => 0
  | DEFI_BRIDGE_ADDRESS => address b
  | DEFI_BRIDGE_NUM_OUTPUT_NOTES => numOutputNotes b
  | DEFI_BRIDGE_INPUT_ASSET_ID => inputAssetId b
  | DEFI_BRIDGE_OUTPUT_A_ASSET_ID => outputAAssetId b
  | DEFI_BRIDGE_OUTPUT_B_ASSET_ID => outputBAssetId b
  end.

(** Every field of [b] fits the width declared for it. *)
Definition bridge_in_range (b : bridge_id) : Prop :=
  address b < 2 ^ DEFI_BRIDGE_ADDRESS_BIT_LENGTH /\
  numOutputNotes b < 2 ^ DEFI_BRIDGE_NUM_OUTPUT_NOTES_LEN /\
  inputAssetId b < 2 ^ DEFI_BRIDGE_INPUT_ASSET_ID_LEN /\
  outputAAssetId b < 2 ^ DEFI_BRIDGE_OUTPUT_A_ASSET_ID_LEN /\
  outputBAssetId b < 2 ^ DEFI_BRIDGE_OUTPUT_B_ASSET_ID_LEN.

(** Modelled from the spec: encoding validates every field against its
    width, failing with the invalid-input error on the first that does not
    fit, and packs the five fields into one number. *)
Definition encode (b : bridge_id) : result N :=
  a <- validate_width DEFI_BRIDGE_ADDRESS_BIT_LENGTH (address b) ;;
  n <- validate_width DEFI_BRIDGE_NUM_OUTPUT_NOTES_LEN (numOutputNotes b) ;;
  i <- validate_width DEFI_BRIDGE_INPUT_ASSET_ID_LEN (inputAssetId b) ;;
  oa <- validate_width DEFI_BRIDGE_OUTPUT_A_ASSET_ID_LEN (outputAAssetId b) ;;
  ob <- validate_width DEFI_BRIDGE_OUTPUT_B_ASSET_ID_LEN (outputBAssetId b) ;;
  Ok (pack [ (DEFI_BRIDGE_ADDRESS_BIT_LENGTH, a);
             (DEFI_BRIDGE_NUM_OUTPUT_NOTES_LEN, n);
             (DEFI_BRIDGE_INPUT_ASSET_ID_LEN, i);
             (DEFI_BRIDGE_OUTPUT_A_ASSET_ID_LEN, oa);
             (DEFI_BRIDGE_OUTPUT_B_ASSET_ID_LEN, ob) ]).

(** Modelled from the spec: decoding splits a packed number along the same
    layout. *)
Definition decode (x : N) : option bridge_id :=
  match unpack (map bit_length bridge_layout) x with
  | [a; n; i; oa; ob] => Some (mkBridgeId a n i oa ob)
  | _ => None
  end.

(** ** The enumeration, seen through its comments and its value rule *)

(** [g] is one of the numbers of the span that closes a comment. *)
Definition in_span (r : Remark) (g : N) : Prop :=
  span_first r <= g <= span_last r.

(** The input count a comment writes, if the enumerator has a comment and
    the comment has a count. *)
Definition commented_inputs (e : Enumerator) : option N :=
  match remark e with
  | Some r => inputs r
  | None => None
  end.

(** No initializer of [decl] falls below the value the enumerator would
    receive without it, [next] being that value for the first one. *)
Fixpoint initializers_ascend (next : N) (decl : list Enumerator) : bool :=
  match decl with
  | [] => true
  | e :: rest =>
      let v := match initializer e with Some i => i | None => next end in
      (next <=? v) && initializers_ascend (v + 1) rest
  end.

(** * Properties *)

(** ** Enumerator values *)

Example enumerators_computed :
  map snd enumerators =
  [0; 4; 7; 11; 13; 15; 34; 35; 36; 37; 38; 39; 40; 41; 42; 43; 44; 45; 46; 47].
Proof. reflexivity. Qed.

(** The table lists every enumerator, once, in declaration order. *)
Lemma enumerators_names :
  map fst enumerators = map name declaration.
Proof. reflexivity. Qed.

Lemma enumerators_complete (p : GeneratorIndex) : In p (map fst enumerators).
Proof. destruct p; vm_compute; tauto. Qed.

Lemma assoc_enumerators (p : GeneratorIndex) :
  assoc p enumerators = Some (index p).
Proof. destruct p; reflexivity. Qed.

(** An enumerator with an initializer has exactly that value. *)
Lemma index_initializer (e : Enumerator) (v : N) :
  In e declaration -> initializer e = Some v -> index (name e) = v.
Proof.
  unfold declaration; simpl; intros H Hv.
  repeat (destruct H as [<- | H]; [simpl in Hv; congruence || (inversion Hv; reflexivity) |]).
  contradiction.
Qed.

(** Enumerator values determine the enumerator. *)
Lemma index_inj (p q : GeneratorIndex) : index p = index q -> p = q.
Proof. destruct p, q; intros H; try reflexivity; vm_compute in H; discriminate. Qed.

(** Registry lookup is total and returns the pair [(index, arity)]. *)
Lemma lookup_spec (p : GeneratorIndex) : lookup p = Some (index p, arity p).
Proof. destruct p; reflexivity. Qed.

(** The enumerated range is the interval [[index p, index p + arity p)]. *)
Lemma range_spec (p : GeneratorIndex) (g : N) : In g (range p) <-> in_range p g.
Proof.
  unfold range, in_range; rewrite in_map_iff; split.
  - intros (n & <- & Hn); apply in_seq in Hn; lia.
  - intros Hg; exists (N.to_nat g); split; [apply N2Nat.id | apply in_seq; lia].
Qed.

(** Where a comment writes the number of inputs, the arity is that number. *)
Lemma arity_is_commented_inputs (p : GeneratorIndex) (r : Remark) (n : N) :
  remark_of p = Some r -> inputs r = Some n -> arity p = n.
Proof.
  destruct p; vm_compute; intros Hr; inversion Hr; subst; simpl;
    intros Hn; inversion Hn; reflexivity.
Qed.

(** The span closing a comment counts two numbers per unit of arity and
    starts at twice the enumerator's value: "0-7" for index 0 and 4 inputs,
    "8-13" for index 4 and 3 inputs, and so on up to "30-33". *)
Lemma commented_span (p : GeneratorIndex) (r : Remark) :
  remark_of p = Some r ->
  span_first r = 2 * index p /\ span_last r + 1 = 2 * (index p + arity p).
Proof.
  destruct p; vm_compute; intros Hr; inversion Hr; subst; split; reflexivity.
Qed.

(** [overlap] decides whether two ranges share an element. *)
Lemma overlap_spec (i1 a1 i2 a2 : N) :
  overlap (i1, a1) (i2, a2) = true <->
  exists g, (i1 <= g < i1 + a1) /\ (i2 <= g < i2 + a2).
Proof.
  unfold overlap; rewrite N.ltb_lt; split.
  - intros H; exists (N.max i1 i2); lia.
  - intros (g & H1 & H2); lia.
Qed.

(** The overlap check is sound and complete on any table: it reports a pair
    exactly when an earlier and a later entry have intersecting ranges. *)
Lemma collisions_spec (tbl : list (GeneratorIndex * (N * N))) :
  collisions tbl = [] <->
  ForallOrdPairs (fun e1 e2 => overlap (snd e1) (snd e2) = false) tbl.
Proof.
  induction tbl as [| [p r] rest IH]; simpl.
  - split; [constructor | reflexivity].
  - split.
    + intros H; apply app_eq_nil in H as [Hm Hc].
      constructor; [| now apply IH].
      apply map_eq_nil in Hm.
      apply Forall_forall; intros e He; simpl.
      destruct (overlap r (snd e)) eqn:Ho; [| reflexivity].
      assert (Hin : In e (filter (fun e => overlap r (snd e)) rest))
        by (apply filter_In; split; assumption).
      rewrite Hm in Hin; contradiction.
    + intros H; inversion H as [| ? ? Hhd Htl]; subst.
      apply IH in Htl; rewrite Htl, app_nil_r.
      replace (filter (fun e => overlap r (snd e)) rest) with
        (@nil (GeneratorIndex * (N * N))); [reflexivity |].
      symmetry; clear -Hhd.
      induction rest as [| e rest IHr]; simpl; [reflexivity |].
      inversion Hhd as [| ? ? He Hr]; subst; simpl in He.
      rewrite He; now apply IHr.
Qed.

(** Distinct purposes never have overlapping ranges, as a computation. *)
Lemma overlap_distinct (p q : GeneratorIndex) :
  p <> q -> overlap (index p, arity p) (index q, arity q) = false.
Proof. destruct p, q; intros H; try reflexivity; now elim H. Qed.

(** C10: the twenty enumerators have pairwise-distinct values.  The first,
    [JOIN_SPLIT_NULLIFIER_HASH_INPUTS], has no initializer and the value 0;
    the enumerators with an initializer have the values written, 4, 7, 11,
    13, 15 and 34; the thirteen enumerators after [JOIN_SPLIT_NOTE_VALUE]
    have no initializer and continue from 34 one by one, from
    [JOIN_SPLIT_NOTE_SECRET] = 35 to
    [DEFI_INTERACTION_NOTE_INTERACTION_RESULT] = 47; and the value of an
    enumerator is strictly below that of every enumerator declared after
    it. *)
Theorem enumerator_values_distinct_and_increasing :
  (length declaration = 20%nat /\
   forall p : GeneratorIndex, In p (map name declaration)) /\
  (forall p q : GeneratorIndex, p <> q -> index p <> index q) /\
  (option_map initializer (hd_error declaration) = Some None /\
   index JOIN_SPLIT_NULLIFIER_HASH_INPUTS = 0) /\
  (index ACCOUNT_NOTE_HASH_INPUTS = 4 /\
   index ACCOUNT_ALIAS_ID_NULLIFIER = 7 /\
   index ACCOUNT_GIBBERISH_NULLIFIER = 11 /\
   index JOIN_SPLIT_NOTE_OWNER = 13 /\
   index JOIN_SPLIT_CLAIM_NOTE_PARTIAL_STATE = 15 /\
   index JOIN_SPLIT_NOTE_VALUE = 34) /\
  map (fun e => (name e, initializer e, index (name e))) declaration =
    [ (JOIN_SPLIT_NULLIFIER_HASH_INPUTS, None, 0);
      (ACCOUNT_NOTE_HASH_INPUTS, Some 4, 4);
      (ACCOUNT_ALIAS_ID_NULLIFIER, Some 7, 7);
      (ACCOUNT_GIBBERISH_NULLIFIER, Some 11, 11);
      (JOIN_SPLIT_NOTE_OWNER, Some 13, 13);
      (JOIN_SPLIT_CLAIM_NOTE_PARTIAL_STATE, Some 15, 15);
      (JOIN_SPLIT_NOTE_VALUE, Some 34, 34);
      (JOIN_SPLIT_NOTE_SECRET, None, 35);
      (JOIN_SPLIT_NOTE_ASSET_ID, None, 36);
      (JOIN_SPLIT_NOTE_NONCE, None, 37);
      (JOIN_SPLIT_NULLIFIER_ACCOUNT_PRIVATE_KEY, None, 38);
      (JOIN_SPLIT_CLAIM_NOTE_VALUE, None, 39);
      (JOIN_SPLIT_CLAIM_NOTE_BRIDGE_ID, None, 40);
      (JOIN_SPLIT_CLAIM_NOTE_DEFI_INTERACTION_NONCE, None, 41);
      (DEFI_INTERACTION_NOTE_TOTAL_INPUT_VALUE, None, 42);
      (DEFI_INTERACTION_NOTE_BRIDGE_ID, None, 43);
      (DEFI_INTERACTION_NOTE_TOTAL_OUTPUT_A_VALUE, None, 44);
      (DEFI_INTERACTION_NOTE_TOTAL_OUTPUT_B_VALUE, None, 45);
      (DEFI_INTERACTION_NOTE_INTERACTION_NONCE, None, 46);
      (DEFI_INTERACTION_NOTE_INTERACTION_RESULT, None, 47) ] /\
  StronglySorted N.lt (map (fun e => index (name e)) declaration) /\
  (length enumerators = 20%nat /\
   NoDup (map snd enumerators) /\
   map snd enumerators = map (fun e => index (name e)) declaration).
Proof.
  assert (Hsorted :
            StronglySorted N.lt (map (fun e => index (name e)) declaration)).
  { vm_compute.
    repeat (apply SSorted_cons;
            [| repeat (apply Forall_cons; [reflexivity |]); apply Forall_nil]).
    apply SSorted_nil. }
  assert (Hsame :
            map snd enumerators = map (fun e => index (name e)) declaration)
    by reflexivity.
  split; [split; [reflexivity | intros p; destruct p; vm_compute; tauto] |].
  split; [intros p q Hpq Heq; apply Hpq, index_inj, Heq |].
  split; [split; reflexivity |].
  split; [repeat split |].
  split; [reflexivity |].
  split; [exact Hsorted |].
  split; [reflexivity |].
  split; [| exact Hsame].
  rewrite Hsame; clear - Hsorted.
  induction Hsorted as [| v l _ IH Hv]; constructor; [| exact IH].
  intros Hin; rewrite Forall_forall in Hv; specialize (Hv v Hin); lia.
Qed.

Lemma enumerator_values_distinct_and_increasing_witness :
  JOIN_SPLIT_NOTE_OWNER <> JOIN_SPLIT_CLAIM_NOTE_PARTIAL_STATE /\
  index JOIN_SPLIT_NOTE_OWNER <> index JOIN_SPLIT_CLAIM_NOTE_PARTIAL_STATE.
Proof.
  assert (H : JOIN_SPLIT_NOTE_OWNER <> JOIN_SPLIT_CLAIM_NOTE_PARTIAL_STATE)
    by discriminate.
  split; [exact H |].
  exact (proj1 (proj2 enumerator_values_distinct_and_increasing)
           JOIN_SPLIT_NOTE_OWNER JOIN_SPLIT_CLAIM_NOTE_PARTIAL_STATE H).
Defined.

(** C8: every purpose of the registry has an arity of at least 1. *)
Theorem arity_at_least_one (P : GeneratorIndex) : 1 <= arity P.
Proof. destruct P; simpl; lia. Qed.

(** C1: with the recorded arities (4, 3, 4, 2, 2, 2 at indices 0, 4, 7, 11,
    13, 15 and 1 at each index from 34 to 47), the ranges
    [[index, index + arity)] of two distinct purposes have no element in
    common. *)
Theorem generator_ranges_disjoint (P1 P2 : GeneratorIndex) (Hdistinct : P1 <> P2) :
  map snd registry =
    [ (0, 4); (4, 3); (7, 4); (11, 2); (13, 2); (15, 2);
      (34, 1); (35, 1); (36, 1); (37, 1); (38, 1); (39, 1); (40, 1);
      (41, 1); (42, 1); (43, 1); (44, 1); (45, 1); (46, 1); (47, 1) ] /\
  forall g : N, ~ (in_range P1 g /\ in_range P2 g).
Proof.
  split; [reflexivity |].
  intros g [H1 H2].
  pose proof (overlap_distinct P1 P2 Hdistinct) as Hno.
  assert (Hyes : overlap (index P1, arity P1) (index P2, arity P2) = true)
    by (apply overlap_spec; exists g; split; assumption).
  congruence.
Qed.

Lemma generator_ranges_disjoint_witness :
  ACCOUNT_NOTE_HASH_INPUTS <> ACCOUNT_ALIAS_ID_NULLIFIER /\
  ~ (in_range ACCOUNT_NOTE_HASH_INPUTS 7 /\ in_range ACCOUNT_ALIAS_ID_NULLIFIER 7).
Proof.
  assert (H : ACCOUNT_NOTE_HASH_INPUTS <> ACCOUNT_ALIAS_ID_NULLIFIER)
    by discriminate.
  split; [exact H |].
  exact (proj2 (generator_ranges_disjoint
                  ACCOUNT_NOTE_HASH_INPUTS ACCOUNT_ALIAS_ID_NULLIFIER H) 7).
Defined.

(** C2: looking up [ACCOUNT_NOTE_HASH_INPUTS] gives index 4 and arity 3, the
    range 4, 5, 6; looking up [ACCOUNT_ALIAS_ID_NULLIFIER] gives index 7 and
    arity 4, the range 7, 8, 9, 10; and the overlap check run on the whole
    table reports no collision. *)
Theorem lookup_scenario :
  lookup ACCOUNT_NOTE_HASH_INPUTS = Some (4, 3) /\
  range ACCOUNT_NOTE_HASH_INPUTS = [4; 5; 6] /\
  lookup ACCOUNT_ALIAS_ID_NULLIFIER = Some (7, 4) /\
  range ACCOUNT_ALIAS_ID_NULLIFIER = [7; 8; 9; 10] /\
  length registry = 20%nat /\
  length (collisions registry) = 0%nat.
Proof. repeat split. Qed.

(** The overlap check does report a collision when there is one. *)
Example collisions_detects :
  collisions [ (ACCOUNT_NOTE_HASH_INPUTS, (4, 4));
               (ACCOUNT_ALIAS_ID_NULLIFIER, (7, 4)) ]
  = [ (ACCOUNT_NOTE_HASH_INPUTS, ACCOUNT_ALIAS_ID_NULLIFIER) ].
Proof. reflexivity. Qed.

(** ** Field widths *)

(** A value needs at most [w] bits exactly when it is below [2^w]. *)
Lemma bits_required_le (v w : N) : bits_required v <= w <-> v < 2 ^ w.
Proof.
  unfold bits_required.
  destruct (N.eq_dec v 0) as [-> | Hv].
  - simpl; split; intros _; [apply N.neq_0_lt_0, N.pow_nonzero; discriminate | lia].
  - rewrite N.size_log2 by assumption.
    rewrite N.le_succ_l.
    symmetry; apply N.log2_lt_pow2; lia.
Qed.

Lemma validate_width_ok (w v : N) : v < 2 ^ w -> validate_width w v = Ok v.
Proof.
  intros H; apply bits_required_le in H.
  unfold validate_width; now apply N.leb_le in H as ->.
Qed.

Lemma validate_width_err (w v : N) :
  2 ^ w <= v -> validate_width w v = Err InvalidInput.
Proof.
  intros H; unfold validate_width.
  destruct (N.leb_spec (bits_required v) w) as [Hle | Hgt]; [| reflexivity].
  apply bits_required_le in Hle; lia.
Qed.

(** Truncation leaves exactly the values that fit unchanged. *)
Lemma truncate_id_iff (w v : N) : truncate w v = v <-> v < 2 ^ w.
Proof.
  unfold truncate; rewrite N.land_ones.
  assert (Hpos : 2 ^ w <> 0) by (apply N.pow_nonzero; discriminate).
  split; intros H.
  - rewrite <- H; now apply N.mod_upper_bound.
  - now apply N.mod_small.
Qed.

(** C3: [NOTE_VALUE_BIT_LENGTH] is 252, strictly below the bit-length of
    the scalar field; in a field whose modulus has that bit-length (or more)
    the sum of two note values is still below the modulus, so adding them
    does not wrap. *)
Theorem note_value_width_below_field (modulus a b : N)
    (Hmodulus : SCALAR_FIELD_BIT_LENGTH <= bits_required modulus)
    (Ha : bits_required a <= NOTE_VALUE_BIT_LENGTH)
    (Hb : bits_required b <= NOTE_VALUE_BIT_LENGTH) :
  NOTE_VALUE_BIT_LENGTH = 252 /\
  NOTE_VALUE_BIT_LENGTH < SCALAR_FIELD_BIT_LENGTH /\
  a + b < modulus /\ (a + b) mod modulus = a + b.
Proof.
  assert (Hsum : a + b < modulus).
  { apply bits_required_le in Ha, Hb.
    assert (Hm : ~ modulus < 2 ^ 253).
    { intros Hlt; apply bits_required_le in Hlt.
      unfold SCALAR_FIELD_BIT_LENGTH in Hmodulus; lia. }
    unfold NOTE_VALUE_BIT_LENGTH in Ha, Hb.
    change (2 ^ 253) with (2 ^ 252 + 2 ^ 252) in Hm.
    remember (2 ^ 252) as bound; lia. }
  repeat split; try reflexivity; [exact Hsum | now apply N.mod_small].
Qed.

Lemma note_value_width_below_field_witness :
  (SCALAR_FIELD_BIT_LENGTH <= bits_required
     21888242871839275222246405745257275088548364400416034343698204186575808495617 /\
   bits_required (2 ^ 252 - 1) <= NOTE_VALUE_BIT_LENGTH) /\
  (2 ^ 252 - 1) + (2 ^ 252 - 1) <
     21888242871839275222246405745257275088548364400416034343698204186575808495617.
Proof.
  assert (Hr : SCALAR_FIELD_BIT_LENGTH <= bits_required
     21888242871839275222246405745257275088548364400416034343698204186575808495617)
    by (vm_compute; discriminate).
  assert (Htop : bits_required (2 ^ 252 - 1) <= NOTE_VALUE_BIT_LENGTH)
    by (vm_compute; discriminate).
  split; [split; assumption |].
  exact (proj1 (proj2 (proj2
           (note_value_width_below_field _ _ _ Hr Htop Htop)))).
Defined.

(** C4: validation against the note-value width rejects every value that
    needs 253 bits or more, with the invalid-input error, and accepts every
    value that needs 252 bits or fewer, handing it back unchanged; whatever
    it accepts is the value itself and never its truncation to 252 bits
    when that differs. *)
Theorem note_value_validation (v : N) :
  (253 <= bits_required v -> validate_note_value v = Err InvalidInput) /\
  (bits_required v <= 252 -> validate_note_value v = Ok v) /\
  (forall r, validate_note_value v = Ok r ->
             r = v /\ truncate NOTE_VALUE_BIT_LENGTH v = v).
Proof.
  unfold validate_note_value, validate_width, NOTE_VALUE_BIT_LENGTH.
  destruct (N.leb_spec (bits_required v) 252) as [Hle | Hgt].
  - split; [intros Hbig; lia |].
    split; [reflexivity |].
    intros r Hr; inversion Hr; subst r.
    split; [reflexivity |].
    now apply truncate_id_iff, bits_required_le.
  - split; [reflexivity |].
    split; [intros Hfit; lia |].
    intros r Hr; discriminate Hr.
Qed.

Lemma note_value_validation_witness :
  (253 <= bits_required (2 ^ 252) /\
   validate_note_value (2 ^ 252) = Err InvalidInput) /\
  (bits_required (2 ^ 252 - 1) <= 252 /\
   validate_note_value (2 ^ 252 - 1) = Ok (2 ^ 252 - 1)).
Proof.
  assert (Hbig : 253 <= bits_required (2 ^ 252)) by (vm_compute; discriminate).
  assert (Hfit : bits_required (2 ^ 252 - 1) <= 252) by (vm_compute; discriminate).
  split; split; try assumption.
  - exact (proj1 (note_value_validation (2 ^ 252)) Hbig).
  - exact (proj1 (proj2 (note_value_validation (2 ^ 252 - 1))) Hfit).
Defined.

(** C5: the widths of the DeFi bridge fields are 160 bits for the bridge
    address, 2 for the output-note count, 32 for the input asset id, 32 for
    the first output asset id and 26 for the second; the two output asset
    ids differ in width. *)
Theorem defi_bridge_field_widths :
  bit_length DEFI_BRIDGE_ADDRESS = 160 /\
  bit_length DEFI_BRIDGE_NUM_OUTPUT_NOTES = 2 /\
  bit_length DEFI_BRIDGE_INPUT_ASSET_ID = 32 /\
  bit_length DEFI_BRIDGE_OUTPUT_A_ASSET_ID = 32 /\
  bit_length DEFI_BRIDGE_OUTPUT_B_ASSET_ID = 26 /\
  DEFI_BRIDGE_OUTPUT_A_ASSET_ID_LEN <> DEFI_BRIDGE_OUTPUT_B_ASSET_ID_LEN.
Proof. repeat split; discriminate. Qed.

(** ** Packing *)

Lemma pow2_nonzero (w : N) : 2 ^ w <> 0.
Proof. apply N.pow_nonzero; discriminate. Qed.

Lemma testbit_above (v w i : N) : v < 2 ^ w -> w <= i -> N.testbit v i = false.
Proof.
  intros Hv Hi.
  rewrite <- (N.mod_small v (2 ^ w)) by assumption.
  now apply N.mod_pow2_bits_high.
Qed.

(** A field that fits its width shares no bit with what is shifted past it,
    so joining the two with [lor] adds them. *)
Lemma lor_shiftl_add (v y w : N) :
  v < 2 ^ w -> N.lor v (N.shiftl y w) = v + y * 2 ^ w.
Proof.
  intros Hv.
  assert (Hdisjoint : N.land v (N.shiftl y w) = 0).
  { apply N.bits_inj; intros i.
    rewrite N.land_spec, N.bits_0.
    destruct (N.lt_ge_cases i w) as [Hlow | Hhigh].
    - rewrite N.shiftl_spec_low by assumption; apply andb_false_r.
    - rewrite (testbit_above v w i) by assumption; reflexivity. }
  rewrite <- N.lxor_lor, <- N.add_nocarry_lxor by assumption.
  now rewrite N.shiftl_mul_pow2.
Qed.

Lemma unpack_cons_pack (v y w : N) :
  v < 2 ^ w ->
  N.land (N.lor v (N.shiftl y w)) (N.ones w) = v /\
  N.shiftr (N.lor v (N.shiftl y w)) w = y.
Proof.
  intros Hv; pose proof (pow2_nonzero w) as Hw.
  rewrite lor_shiftl_add, N.land_ones, N.shiftr_div_pow2 by assumption.
  split.
  - rewrite N.Div0.mod_add; now apply N.mod_small.
  - rewrite N.div_add by assumption.
    rewrite N.div_small by assumption; reflexivity.
Qed.

(** Round trip of the generic packing: fields that fit their widths are
    recovered exactly. *)
Lemma unpack_pack (fields : list (N * N)) :
  fields_fit fields -> unpack (map fst fields) (pack fields) = map snd fields.
Proof.
  induction 1 as [| [w v] rest Hv _ IH]; simpl in *; [reflexivity |].
  destruct (unpack_cons_pack v (pack rest) w Hv) as [-> ->].
  now rewrite IH.
Qed.

(** Packed fields occupy no more than the sum of their widths. *)
Lemma pack_bound (fields : list (N * N)) :
  fields_fit fields -> pack fields < 2 ^ total_width (map fst fields).
Proof.
  induction 1 as [| [w v] rest Hv _ IH]; simpl in *; [reflexivity |].
  rewrite lor_shiftl_add by assumption.
  rewrite N.pow_add_r.
  pose proof (pow2_nonzero w).
  remember (2 ^ w) as W; remember (2 ^ total_width (map fst rest)) as T.
  nia.
Qed.

(** Encoding succeeds on a bridge id whose fields are in range, and yields
    the packing of its fields. *)
Lemma encode_in_range (b : bridge_id) :
  bridge_in_range b ->
  encode b = Ok (pack (map (fun f => (bit_length f, field_value b f))
                           bridge_layout)).
Proof.
  intros (Ha & Hn & Hi & Hoa & Hob); unfold encode.
  rewrite !validate_width_ok by assumption; reflexivity.
Qed.

Lemma bridge_fields_fit (b : bridge_id) :
  bridge_in_range b ->
  fields_fit (map (fun f => (bit_length f, field_value b f)) bridge_layout).
Proof.
  intros (Ha & Hn & Hi & Hoa & Hob).
  repeat (apply Forall_cons; [assumption |]); apply Forall_nil.
Qed.

(** Encoding fails, with the invalid-input error, whenever some field does
    not fit its width. *)
Lemma encode_out_of_range (b : bridge_id) :
  ~ bridge_in_range b -> encode b = Err InvalidInput.
Proof.
  intros Hout; unfold encode.
  destruct (N.lt_ge_cases (address b)
              (2 ^ DEFI_BRIDGE_ADDRESS_BIT_LENGTH)) as [Ha | Ha];
    [rewrite (validate_width_ok _ _ Ha); simpl
    | now rewrite (validate_width_err _ _ Ha)].
  destruct (N.lt_ge_cases (numOutputNotes b)
              (2 ^ DEFI_BRIDGE_NUM_OUTPUT_NOTES_LEN)) as [Hn | Hn];
    [rewrite (validate_width_ok _ _ Hn); simpl
    | now rewrite (validate_width_err _ _ Hn)].
  destruct (N.lt_ge_cases (inputAssetId b)
              (2 ^ DEFI_BRIDGE_INPUT_ASSET_ID_LEN)) as [Hi | Hi];
    [rewrite (validate_width_ok _ _ Hi); simpl
    | now rewrite (validate_width_err _ _ Hi)].
  destruct (N.lt_ge_cases (outputAAssetId b)
              (2 ^ DEFI_BRIDGE_OUTPUT_A_ASSET_ID_LEN)) as [Hoa | Hoa];
    [rewrite (validate_width_ok _ _ Hoa); simpl
    | now rewrite (validate_width_err _ _ Hoa)].
  destruct (N.lt_ge_cases (outputBAssetId b)
              (2 ^ DEFI_BRIDGE_OUTPUT_B_ASSET_ID_LEN)) as [Hob | Hob];
    [| now rewrite (validate_width_err _ _ Hob)].
  elim Hout; repeat split; assumption.
Qed.

(** C6: the packed width of a DeFi bridge id is the sum of its five field
    widths, 160 + 2 + 32 + 32 + 26 = 252 bits (the sum does not wrap on
    [uint32_t]); every number of that many bits is below the modulus of any
    field whose bit-length is at least 253. *)
Theorem defi_bridge_packed_width (modulus : N)
    (Hmodulus : 253 <= bits_required modulus) :
  bridge_packed_width =
    DEFI_BRIDGE_ADDRESS_BIT_LENGTH + DEFI_BRIDGE_NUM_OUTPUT_NOTES_LEN +
    DEFI_BRIDGE_INPUT_ASSET_ID_LEN + DEFI_BRIDGE_OUTPUT_A_ASSET_ID_LEN +
    DEFI_BRIDGE_OUTPUT_B_ASSET_ID_LEN /\
  uint32_add (uint32_add (uint32_add (uint32_add
    DEFI_BRIDGE_ADDRESS_BIT_LENGTH DEFI_BRIDGE_NUM_OUTPUT_NOTES_LEN)
    DEFI_BRIDGE_INPUT_ASSET_ID_LEN) DEFI_BRIDGE_OUTPUT_A_ASSET_ID_LEN)
    DEFI_BRIDGE_OUTPUT_B_ASSET_ID_LEN = 252 /\
  bridge_packed_width = 160 + 2 + 32 + 32 + 26 /\
  bridge_packed_width = 252 /\
  forall x, bits_required x <= bridge_packed_width -> x < modulus.
Proof.
  repeat (split; [reflexivity |]).
  intros x Hx; apply bits_required_le in Hx.
  assert (Hm : ~ modulus < 2 ^ 252).
  { intros Hlt; apply bits_required_le in Hlt; lia. }
  change bridge_packed_width with 252 in Hx.
  remember (2 ^ 252) as bound; lia.
Qed.

Lemma defi_bridge_packed_width_witness :
  253 <= bits_required (2 ^ 252) /\
  bridge_packed_width = 252 /\
  (2 ^ 252 - 1 < 2 ^ 252).
Proof.
  assert (Hm : 253 <= bits_required (2 ^ 252)) by (vm_compute; discriminate).
  split; [exact Hm |].
  destruct (defi_bridge_packed_width (2 ^ 252) Hm) as (_ & _ & _ & Hw & Hfit).
  split; [exact Hw |].
  apply Hfit; vm_compute; discriminate.
Defined.

(** A successfully encoded bridge id occupies at most 252 bits. *)
Lemma encode_bound (b : bridge_id) (x : N) :
  bridge_in_range b -> encode b = Ok x ->
  bits_required x <= bridge_packed_width.
Proof.
  intros Hb He; rewrite (encode_in_range b Hb) in He; inversion He; subst x.
  apply bits_required_le.
  pose proof (pack_bound _ (bridge_fields_fit b Hb)) as H.
  rewrite map_map in H; exact H.
Qed.

(** C7: a bridge id whose fields are in range (address below [2^160],
    output-note count below [2^2], input and first output asset ids below
    [2^32], second output asset id below [2^26]) is encoded without error,
    and decoding the result gives back exactly the original fields. *)
Theorem bridge_id_round_trip (b : bridge_id) (Hrange : bridge_in_range b) :
  exists x, encode b = Ok x /\ decode x = Some b.
Proof.
  eexists; split; [apply encode_in_range; assumption |].
  unfold decode.
  pose proof (unpack_pack _ (bridge_fields_fit b Hrange)) as H.
  rewrite !map_map in H; simpl map in H.
  simpl map; rewrite H.
  destruct b; reflexivity.
Qed.

Lemma bridge_id_round_trip_witness :
  bridge_in_range (mkBridgeId (2 ^ 160 - 1) 2 7 (2 ^ 32 - 1) (2 ^ 26 - 1)) /\
  exists x,
    encode (mkBridgeId (2 ^ 160 - 1) 2 7 (2 ^ 32 - 1) (2 ^ 26 - 1)) = Ok x /\
    decode x = Some (mkBridgeId (2 ^ 160 - 1) 2 7 (2 ^ 32 - 1) (2 ^ 26 - 1)).
Proof.
  assert (H : bridge_in_range
                (mkBridgeId (2 ^ 160 - 1) 2 7 (2 ^ 32 - 1) (2 ^ 26 - 1)))
    by (repeat split).
  split; [exact H | exact (bridge_id_round_trip _ H)].
Defined.

(** ** The comments against the values *)

(** X1: the span closing an enumerator's comment starts at twice the
    enumerator's value, and where the comment writes an input count the
    span holds two numbers per input. *)
Theorem span_doubles_index (p : GeneratorIndex) (r : Remark)
    (Hr : remark_of p = Some r) :
  span_first r = 2 * index p /\
  forall n, inputs r = Some n -> span_last r + 1 = span_first r + 2 * n.
Proof.
  destruct p; vm_compute in Hr; inversion Hr; subst r; simpl;
    (split; [reflexivity | intros n Hn; inversion Hn; reflexivity]).
Qed.

Lemma span_doubles_index_witness :
  remark_of ACCOUNT_NOTE_HASH_INPUTS = Some (mkRemark encrypt (Some 3) 8 13) /\
  8 = 2 * index ACCOUNT_NOTE_HASH_INPUTS.
Proof.
  assert (H : remark_of ACCOUNT_NOTE_HASH_INPUTS
              = Some (mkRemark encrypt (Some 3) 8 13)) by reflexivity.
  split; [exact H |].
  exact (proj1 (span_doubles_index ACCOUNT_NOTE_HASH_INPUTS _ H)).
Defined.

(** X2: the commented spans cover the numbers below the value of
    [JOIN_SPLIT_NOTE_VALUE] without gap and without overlap: each such
    number lies in the span of exactly one commented enumerator. *)
Theorem spans_partition (g : N) (Hg : g < index JOIN_SPLIT_NOTE_VALUE) :
  exists p r,
    remark_of p = Some r /\ in_span r g /\
    forall q s, remark_of q = Some s -> in_span s g -> q = p.
Proof.
  change (index JOIN_SPLIT_NOTE_VALUE) with 34 in Hg.
  assert (Hcases : g <= 7 \/ 8 <= g <= 13 \/ 14 <= g <= 21 \/
                   22 <= g <= 25 \/ 26 <= g <= 29 \/ 30 <= g <= 33) by lia.
  destruct Hcases as [H | [H | [H | [H | [H | H]]]]];
    [ exists JOIN_SPLIT_NULLIFIER_HASH_INPUTS
    | exists ACCOUNT_NOTE_HASH_INPUTS
    | exists ACCOUNT_ALIAS_ID_NULLIFIER
    | exists ACCOUNT_GIBBERISH_NULLIFIER
    | exists JOIN_SPLIT_NOTE_OWNER
    | exists JOIN_SPLIT_CLAIM_NOTE_PARTIAL_STATE ];
    eexists; (split; [reflexivity |]);
    (split; [unfold in_span; simpl; lia |]);
    intros q s Hs Hin; unfold in_span in Hin;
    destruct q; vm_compute in Hs; inversion Hs; subst s;
      simpl in Hin; solve [reflexivity | lia].
Qed.

Lemma spans_partition_witness :
  26 < index JOIN_SPLIT_NOTE_VALUE /\
  exists p r,
    remark_of p = Some r /\ in_span r 26 /\
    forall q s, remark_of q = Some s -> in_span s 26 -> q = p.
Proof.
  assert (H : 26 < index JOIN_SPLIT_NOTE_VALUE) by reflexivity.
  split; [exact H | exact (spans_partition 26 H)].
Defined.

(** X3: where an enumerator's comment writes an input count, the enumerator
    declared next has the value of this one plus that count. *)
Theorem next_value_is_value_plus_inputs (i : nat) (e1 e2 : Enumerator) (n : N)
    (H1 : nth_error declaration i = Some e1)
    (H2 : nth_error declaration (S i) = Some e2)
    (Hn : commented_inputs e1 = Some n) :
  index (name e2) = index (name e1) + n.
Proof.
  do 20 (destruct i as [| i];
         [ simpl in H1, H2; inversion H1; inversion H2; subst e1 e2;
           vm_compute in Hn; solve [discriminate Hn | inversion Hn; reflexivity]
         |]).
  simpl in H1; destruct i; discriminate H1.
Qed.

Lemma next_value_is_value_plus_inputs_witness :
  commented_inputs
    (mkEnumerator ACCOUNT_NOTE_HASH_INPUTS (Some 4)
       (Some (mkRemark encrypt (Some 3) 8 13))) = Some 3 /\
  index ACCOUNT_ALIAS_ID_NULLIFIER = index ACCOUNT_NOTE_HASH_INPUTS + 3.
Proof.
  split; [reflexivity |].
  exact (next_value_is_value_plus_inputs 1
           (mkEnumerator ACCOUNT_NOTE_HASH_INPUTS (Some 4)
              (Some (mkRemark encrypt (Some 3) 8 13)))
           (mkEnumerator ACCOUNT_ALIAS_ID_NULLIFIER (Some 7)
              (Some (mkRemark compress (Some 4) 14 21)))
           3 eq_refl eq_refl eq_refl).
Defined.

(** ** The value rule *)

Lemma assign_values_lower_bound (decl : list Enumerator) :
  forall next, initializers_ascend next decl = true ->
  Forall (fun v => next <= v) (map snd (assign_values next decl)).
Proof.
  induction decl as [| e rest IH]; intros next H; simpl in *; [constructor |].
  apply andb_true_iff in H as [Hv Hrest]; apply N.leb_le in Hv.
  constructor; [exact Hv |].
  eapply Forall_impl; [| exact (IH _ Hrest)].
  intros v Hle; simpl in Hle; lia.
Qed.

(** X4: under the value rule, an enumeration none of whose initializers
    falls below the value its enumerator would receive without it has
    strictly increasing values, whatever value it starts from. *)
Theorem ascending_initializers_increase (next : N) (decl : list Enumerator)
    (Hascend : initializers_ascend next decl = true) :
  StronglySorted N.lt (map snd (assign_values next decl)).
Proof.
  revert next Hascend.
  induction decl as [| e rest IH]; intros next H; simpl in *; [constructor |].
  apply andb_true_iff in H as [_ Hrest].
  constructor; [exact (IH _ Hrest) |].
  eapply Forall_impl; [| exact (assign_values_lower_bound _ _ Hrest)].
  intros v Hle; simpl in Hle; lia.
Qed.

Lemma ascending_initializers_increase_witness :
  initializers_ascend 0 declaration = true /\
  StronglySorted N.lt (map snd (assign_values 0 declaration)).
Proof.
  assert (H : initializers_ascend 0 declaration = true) by reflexivity.
  split; [exact H |].
  exact (ascending_initializers_increase 0 declaration H).
Defined.

(** X5: under the value rule, enumerators declared without initializer take
    consecutive values: the one at position [k] of such a run has the first
    one's value plus [k]. *)
Theorem run_without_initializers (decl : list Enumerator) (next : N)
    (Hnone : Forall (fun e => initializer e = None) decl) :
  map snd (assign_values next decl) =
  map (fun k => next + N.of_nat k) (seq 0 (length decl)).
Proof.
  revert next; induction Hnone as [| e rest He _ IH]; intros next;
    simpl; [reflexivity |].
  rewrite He, IH, <- seq_shift, map_map.
  f_equal; [lia |].
  apply map_ext; intros k; lia.
Qed.

Lemma run_without_initializers_witness :
  Forall (fun e => initializer e = None) (skipn 7 declaration) /\
  map snd (assign_values 35 (skipn 7 declaration)) =
  [35; 36; 37; 38; 39; 40; 41; 42; 43; 44; 45; 46; 47].
Proof.
  assert (H : Forall (fun e => initializer e = None) (skipn 7 declaration))
    by (repeat constructor).
  split; [exact H |].
  exact (run_without_initializers (skipn 7 declaration) 35 H).
Defined.

(** X6: no enumerator has a value above that of the enumerator declared
    last, [DEFI_INTERACTION_NOTE_INTERACTION_RESULT]; a table with 48
    entries can be addressed by every enumerator. *)
Theorem index_bounded (p : GeneratorIndex) :
  index p <= index DEFI_INTERACTION_NOTE_INTERACTION_RESULT /\ index p < 48.
Proof. destruct p; split; vm_compute; congruence. Qed.
